(** * The send helpers, the actor registry and the mailbox contract of CAF

    The development follows three sources:
    - [libcaf_core/caf/send.hpp]: [send_as], [anon_send], [anon_send_exit]
      and the deprecated [send_tuple_as] / [anon_send_tuple];
    - the header of [actor_registry]: the [get] templates and the
      callback flavour of [await_running_count_equal];
    - the mailbox contract, of which only the specification exists. *)

From Stdlib Require Import ZArith List Lia.
From stdpp Require Import gmap strings list.

(** ** Handles

    Modelled from the spec: the handle classes ([caf/actor.hpp],
    [caf/actor_addr.hpp], [caf/channel.hpp], [caf/actor_cast.hpp]) are not
    among the sources.  A handle refers to an actor or is "the sentinel
    invalid"; [send.hpp] tests it with [!to] and goes through it with [->].
    [actor], [actor_addr], [channel] and [typed_actor] are pointers to the
    same kind of object, null when invalid, and the object is named by its
    64-bit actor id. *)

Definition actor_id := N.

Record actor := mk_actor { actor_ptr : option actor_id }.
Record actor_addr := mk_actor_addr { addr_ptr : option actor_id }.
Record channel := mk_channel { channel_ptr : option actor_id }.
Record typed_actor := mk_typed_actor { typed_ptr : option actor_id }.

Record strong_actor_ptr := mk_strong_actor_ptr { strong_ptr : option actor_id }.

Definition invalid_actor : actor := mk_actor None.
Definition invalid_actor_addr : actor_addr := mk_actor_addr None.



(** [from.address()] *)
Definition address (a : actor) : actor_addr := mk_actor_addr (actor_ptr a).

(** [!to], the test that guards every helper. *)
Definition channel_is_null (c : channel) : bool :=
  match channel_ptr c with Some _ => false | None => true end.

Definition addr_is_null (a : actor_addr) : bool :=
  match addr_ptr a with Some _ => false | None => true end.

(** [actor_cast<T>(x)] re-wraps the pointer of [x] in a handle of type [T];
    the two instances used by [send.hpp]. *)
Definition actor_cast_actor (a : actor_addr) : actor := mk_actor (addr_ptr a).
Definition actor_cast_channel (t : typed_actor) : channel :=
  mk_channel (typed_ptr t).

(** ** Message ids and priorities *)

Module message_priority.
Inductive t := normal | high.

Definition eqb (a b : t) : bool :=
  match a, b with
  | normal, normal | high, high => true
  | _, _ => false
  end.
End message_priority.

(** A message id is a 64-bit integer. *)
Record message_id := mk_message_id { integer_value : Z }.

Definition uint64_max : Z := 2 ^ 64 - 1.

Definition message_id_in_range (m : message_id) : Prop :=
  (0 <= integer_value m <= uint64_max)%Z.

(** ** Messages *)

Record exit_msg := mk_exit_msg { source : actor_addr; reason : Z }.

(** The values a message can carry; a message is itself a value, which is
    how the deprecated helpers hand one to [send_as]. *)
#[local] Set Warnings "-register-all".
Inductive value :=
| V_int (z : Z)
| V_string (s : string)
| V_exit_msg (e : exit_msg)
| V_message (m : list value).

Definition message := list value.

Definition execution_unit := N.

(** ** The effect of a helper: calls of the virtual [enqueue] *)

(** One call [obj->enqueue(sender, mid, content, host)], with the object it
    is made on. *)
Record enqueue_call := mk_enqueue_call {
  callee : actor_id;
  sender : actor_addr;
  mid : message_id;
  content : message;
  host : option execution_unit
}.

(** The arguments of a call as the callee receives them, in order. *)
Inductive argument :=
| Arg_addr (a : actor_addr)
| Arg_mid (m : message_id)
| Arg_message (m : message)
| Arg_host (h : option execution_unit).

Definition arguments (c : enqueue_call) : list argument :=
  [Arg_addr (sender c); Arg_mid (mid c); Arg_message (content c);
   Arg_host (host c)].

(** The calls made so far, oldest first. *)
Definition world := list enqueue_call.

(** A [void] function either returns, leaving a world behind, or it
    dereferences a null pointer. *)
Inductive outcome (A : Type) :=
| Returned (a : A) (w : world)
| NullDereference.

Arguments Returned {A} a w.
Arguments NullDereference {A}.

Definition M (A : Type) := world -> outcome A.

#[export] Instance M_ret : MRet M := fun A a w => Returned a w.

#[export] Instance M_bind : MBind M := fun A B k m w =>
  match m w with
  | Returned a w' => k a w'
  | NullDereference => NullDereference
  end.

(** [p->] on a smart pointer. *)
Definition deref (p : option actor_id) : M actor_id :=
  fun w => match p with
           | Some obj => Returned obj w
           | None => NullDereference
           end.

Definition enqueue (obj : actor_id) (from : actor_addr) (m : message_id)
    (msg : message) (eu : option execution_unit) : M unit :=
  fun w => Returned tt (w ++ [mk_enqueue_call obj from m msg eu]).

Definition returned {A} (o : outcome A) : bool :=
  match o with Returned _ _ => true | NullDereference => false end.

(** [enum class test_enum], lines 26-30 of the serialization fixture. *)
Module test_enum.
Inductive t := a | b | c.

Definition eqb (x y : t) : bool :=
  match x, y with
  | a, a | b, b | c, c => true
  | _, _ => false
  end.
End test_enum.

Section Caf.

(** [caf/message_id.hpp] and [caf/message.hpp] are not part of the
    sources.  What [send.hpp] uses of them is taken as a parameter: the
    position of the priority flag in the 64-bit id, the value of a
    default-constructed id, and [make_message]. *)
Variable priority_flag_bit : N.
Variable default_message_id : message_id.
Variable make_message : list value -> message.

(** Modelled from the spec: [message_id::with_high_priority()], of the
    missing [caf/message_id.hpp].  A message id is a "64-bit routing token
    carrying: request/response correlation bits, priority bit"; the method
    sets the priority bit and keeps the others. *)
Definition with_high_priority (m : message_id) : message_id :=
  mk_message_id
    (Z.lor (integer_value m) (Z.shiftl 1 (Z.of_N priority_flag_bit))).

(** Modelled from the spec: [message_id::is_high_priority()], missing like
    the method above; it reads the priority bit. *)
Definition is_high_priority (m : message_id) : bool :=
  Z.testbit (integer_value m) (Z.of_N priority_flag_bit).

(** [send_as(from, prio, to, vs...)], lines 39-49. *)
Definition send_as (from : actor) (prio : message_priority.t)
    (to : channel) (vs : list value) : M unit :=
  if channel_is_null to then mret tt
  else
    let mid := default_message_id in
    obj ← deref (channel_ptr to);
    enqueue obj (address from)
      (if message_priority.eqb prio message_priority.high
       then with_high_priority mid else mid)
      (make_message vs) None.

(** [send_as(from, to, vs...)], lines 54-57. *)
Definition send_as_normal (from : actor) (to : channel) (vs : list value)
    : M unit :=
  send_as from message_priority.normal to vs.

(** The [typed_actor] overloads, lines 62-89; [check_typed_input] is a
    compile-time check. *)
Definition send_as_typed (from : actor) (prio : message_priority.t)
    (to : typed_actor) (vs : list value) : M unit :=
  send_as from prio (actor_cast_channel to) vs.

Definition send_as_typed_normal (from : actor) (to : typed_actor)
    (vs : list value) : M unit :=
  send_as from message_priority.normal (actor_cast_channel to) vs.

(** [anon_send(prio, to, vs...)], lines 94-97. *)
Definition anon_send (prio : message_priority.t) (to : channel)
    (vs : list value) : M unit :=
  send_as invalid_actor prio to vs.

(** [anon_send(to, vs...)], lines 102-105. *)
Definition anon_send_normal (to : channel) (vs : list value) : M unit :=
  send_as invalid_actor message_priority.normal to vs.

(** The [typed_actor] overloads of [anon_send], lines 110-137. *)
Definition anon_send_typed (prio : message_priority.t) (to : typed_actor)
    (vs : list value) : M unit :=
  anon_send prio (actor_cast_channel to) vs.

Definition anon_send_typed_normal (to : typed_actor) (vs : list value)
    : M unit :=
  anon_send message_priority.normal (actor_cast_channel to) vs.

(** [anon_send_exit(const actor_addr& to, uint32_t reason)],
    lines 142-149. *)
Definition anon_send_exit (to : actor_addr) (reason : Z) : M unit :=
  if addr_is_null to then mret tt
  else
    let ptr := actor_cast_actor to in
    obj ← deref (actor_ptr ptr);
    enqueue obj invalid_actor_addr
      (with_high_priority default_message_id)
      (make_message [V_exit_msg (mk_exit_msg invalid_actor_addr reason)])
      None.

(** [anon_send_exit(const ActorHandle& to, uint32_t reason)],
    lines 154-157, at [ActorHandle = actor]. *)
Definition anon_send_exit_handle (to : actor) (reason : Z) : M unit :=
  anon_send_exit (address to) reason.

(** The deprecated helpers, lines 171-187. *)
Definition send_tuple_as (from : actor) (to : channel) (msg : message)
    : M unit :=
  send_as_normal from to [V_message msg].

Definition send_tuple_as_prio (from : actor) (to : channel)
    (prio : message_priority.t) (msg : message) : M unit :=
  send_as from prio to [V_message msg].

Definition anon_send_tuple (to : channel) (msg : message) : M unit :=
  send_as_normal invalid_actor to [V_message msg].

Definition anon_send_tuple_prio (to : channel) (prio : message_priority.t)
    (msg : message) : M unit :=
  send_as invalid_actor prio to [V_message msg].

(** ** The actor registry (header of [actor_registry]) *)

(** [running_], [entries_] and [named_entries_]; the mutexes and the
    condition variable guard them and hold no data. *)
Record actor_registry := mk_actor_registry {
  running_ : gset actor_id;
  entries_ : gmap actor_id strong_actor_ptr;
  named_entries_ : gmap string strong_actor_ptr
}.



















(** Modelled from the spec: what other threads do to the running set while
    the caller of [await_running_count_equal] sleeps in [wait];
    [inc_running(id)] inserts [id], [dec_running(id)] and [erase(id)]
    remove it.  Their definitions are not among the sources. *)
Inductive running_update :=
| Inserted (id : actor_id)
| Removed (id : actor_id).

Definition apply_update (r : actor_registry) (u : running_update)
    : actor_registry :=
  match u with
  | Inserted id =>
      mk_actor_registry ({[id]} ∪ running_ r) (entries_ r)
        (named_entries_ r)
  | Removed id =>
      mk_actor_registry (running_ r ∖ {[id]}) (entries_ r)
        (named_entries_ r)
  end.

(** One return of [running_cv_.wait(guard)]: the updates other threads
    made between the release of [running_mtx_] inside [wait] and its
    re-acquisition, oldest first.  The list is empty for a wake-up that
    follows no update. *)
Definition wakeup := list running_update.

Definition after_wakeup (r : actor_registry) (w : wakeup) : actor_registry :=
  foldl apply_update r w.

(** [await_running_count_equal(expected, cb)], lines 74-81.  [cb] acts on
    the state [St] it captured.  The result is [None] while the caller is
    still blocked after the last of [wakeups]. *)
Fixpoint await_running_count_equal {St} (expected : nat) (cb : St -> St)
    (wakeups : list wakeup) (r : actor_registry) (s : St)
    : option (actor_registry * St) :=
  if Nat.eqb (size (running_ r)) expected then Some (r, s)
  else
    match wakeups with
    | [] => None
    | w :: rest =>
        await_running_count_equal expected cb rest (after_wakeup r w) (cb s)
    end.

(** The registry as the caller sees it after [n] wake-ups. *)
Definition observed (r : actor_registry) (wakeups : list wakeup) (n : nat)
    : actor_registry :=
  foldl after_wakeup r (take n wakeups).

(** How often a sequence of updates shrinks the running set. *)
Fixpoint shrinks (running : gset actor_id) (us : list running_update)
    : nat :=
  match us with
  | [] => 0
  | Inserted id :: rest => shrinks ({[id]} ∪ running) rest
  | Removed id :: rest =>
      (if decide (id ∈ running) then 1 else 0)
      + shrinks (running ∖ {[id]}) rest
  end.

(** ** The mailbox *)

(** Modelled from the spec: no source file of the mailbox is present.
    "Envelope: one unit in a mailbox: sender, message id, payload." *)
Record envelope := mk_envelope {
  env_sender : actor_addr;
  env_mid : message_id;
  env_payload : message
}.

(** Modelled from the spec: the mailbox is missing from the sources.  "Two
    logical lanes, high priority and normal priority, each FIFO", and "a
    state field drawn from {Empty, Ready, Blocked, Closed}". *)
Inductive mailbox_state := Empty | Ready | Blocked | Closed.

Record mailbox := mk_mailbox {
  high_lane : list envelope;
  normal_lane : list envelope;
  state : mailbox_state
}.

Inductive push_result := Push_unblocked | Push_queued | Push_closed.

Definition new_mailbox : mailbox := mk_mailbox [] [] Empty.

Definition is_closed (mb : mailbox) : bool :=
  match state mb with Closed => true | _ => false end.

(** The lane of an envelope is decided by the priority flag of its id:
    "priority lives in the MessageId". *)
Definition env_is_high (e : envelope) : bool := is_high_priority (env_mid e).

(** Modelled from the spec: "[push(sender, mid, payload)] returns
    Unblocked iff this push caused transition Blocked to Ready", and after
    [close] a "push returns Closed".  No capacity bound is configured. *)
Definition push (from : actor_addr) (m : message_id) (payload : message)
    (mb : mailbox) : push_result * mailbox :=
  let e := mk_envelope from m payload in
  let queued :=
    if env_is_high e
    then mk_mailbox (high_lane mb ++ [e]) (normal_lane mb) Ready
    else mk_mailbox (high_lane mb) (normal_lane mb ++ [e]) Ready in
  match state mb with
  | Closed => (Push_closed, mb)
  | Blocked => (Push_unblocked, queued)
  | Empty | Ready => (Push_queued, queued)
  end.

(** Modelled from the spec: "[pop()] returns None iff the mailbox is
    empty; transitioning the state to Blocked in that case", and "pop
    drains all of high before any of normal".  A closed mailbox stays
    closed, as "every subsequent push is rejected" asks. *)
Definition pop (mb : mailbox) : option envelope * mailbox :=
  match high_lane mb, normal_lane mb with
  | e :: rest, _ => (Some e, mk_mailbox rest (normal_lane mb) (state mb))
  | [], e :: rest => (Some e, mk_mailbox [] rest (state mb))
  | [], [] =>
      (None, mk_mailbox [] [] (if is_closed mb then Closed else Blocked))
  end.

(** Modelled from the spec: "[close()]: idempotent; subsequent push returns
    Closed; pop drains remaining messages then reports empty". *)
Definition close (mb : mailbox) : mailbox :=
  mk_mailbox (high_lane mb) (normal_lane mb) Closed.

(** The envelopes of a mailbox in the order [pop] hands them out. *)
Definition queued (mb : mailbox) : list envelope :=
  high_lane mb ++ normal_lane mb.

Definition push_envelope (mb : mailbox) (e : envelope) : mailbox :=
  snd (push (env_sender e) (env_mid e) (env_payload e) mb).

(** A sequence of pushes, oldest first. *)
Definition push_all (es : list envelope) (mb : mailbox) : mailbox :=
  foldl push_envelope mb es.

(** The worker's loop: pop until the mailbox reports empty.  [None] when
    [fuel] pops did not reach the end. *)
Fixpoint pop_until_empty (fuel : nat) (mb : mailbox)
    : option (list envelope * mailbox) :=
  match fuel with
  | O => None
  | S fuel' =>
      match pop mb with
      | (None, mb') => Some ([], mb')
      | (Some e, mb') =>
          match pop_until_empty fuel' mb' with
          | Some (es, mb'') => Some (e :: es, mb'')
          | None => None
          end
      end
  end.

Definition drain (mb : mailbox) : option (list envelope * mailbox) :=
  pop_until_empty (S (length (queued mb))) mb.

(** The pushes of [es] that a mailbox in the state of [mb] takes. *)
Definition accepted (mb : mailbox) (es : list envelope) : list envelope :=
  if is_closed mb then [] else es.

(** Interleavings of the three operations, for the behaviour after
    [close]. *)
Inductive mailbox_op :=
| Op_push (e : envelope)
| Op_pop
| Op_close.

Inductive op_result :=
| Res_push (r : push_result)
| Res_pop (e : option envelope)
| Res_close.

Definition step (op : mailbox_op) (mb : mailbox) : op_result * mailbox :=
  match op with
  | Op_push e =>
      let (r, mb') := push (env_sender e) (env_mid e) (env_payload e) mb in
      (Res_push r, mb')
  | Op_pop => let (e, mb') := pop mb in (Res_pop e, mb')
  | Op_close => (Res_close, close mb)
  end.

Fixpoint run (ops : list mailbox_op) (mb : mailbox)
    : list op_result * mailbox :=
  match ops with
  | [] => ([], mb)
  | op :: rest =>
      let (r, mb') := step op mb in
      let (rs, mb'') := run rest mb' in
      (r :: rs, mb'')
  end.

Definition push_results (rs : list op_result) : list push_result :=
  omap (fun r => match r with Res_push p => Some p | _ => None end) rs.

Definition pop_results (rs : list op_result) : list (option envelope) :=
  omap (fun r => match r with Res_pop e => Some e | _ => None end) rs.

(** Modelled from the spec: the mailbox end of the virtual [enqueue], which
    is not among the sources.  "Exit delivery is a normal mailbox enqueue",
    and "the core propagates nothing to the caller of enqueue". *)
Definition deliver (c : enqueue_call) (mb : mailbox) : mailbox :=
  snd (push (sender c) (mid c) (content c) mb).

(** ** Every call of a helper of [send.hpp] *)

Inductive helper_call :=
| Call_send_as (from : actor) (prio : message_priority.t) (to : channel)
    (vs : list value)
| Call_send_as_normal (from : actor) (to : channel) (vs : list value)
| Call_send_as_typed (from : actor) (prio : message_priority.t)
    (to : typed_actor) (vs : list value)
| Call_send_as_typed_normal (from : actor) (to : typed_actor)
    (vs : list value)
| Call_anon_send (prio : message_priority.t) (to : channel)
    (vs : list value)
| Call_anon_send_normal (to : channel) (vs : list value)
| Call_anon_send_typed (prio : message_priority.t) (to : typed_actor)
    (vs : list value)
| Call_anon_send_typed_normal (to : typed_actor) (vs : list value)
| Call_anon_send_exit (to : actor_addr) (reason : Z)
| Call_anon_send_exit_handle (to : actor) (reason : Z)
| Call_send_tuple_as (from : actor) (to : channel) (msg : message)
| Call_send_tuple_as_prio (from : actor) (to : channel)
    (prio : message_priority.t) (msg : message)
| Call_anon_send_tuple (to : channel) (msg : message)
| Call_anon_send_tuple_prio (to : channel) (prio : message_priority.t)
    (msg : message).

Definition run_helper (h : helper_call) : M unit :=
  match h with
  | Call_send_as from prio to vs => send_as from prio to vs
  | Call_send_as_normal from to vs => send_as_normal from to vs
  | Call_send_as_typed from prio to vs => send_as_typed from prio to vs
  | Call_send_as_typed_normal from to vs => send_as_typed_normal from to vs
  | Call_anon_send prio to vs => anon_send prio to vs
  | Call_anon_send_normal to vs => anon_send_normal to vs
  | Call_anon_send_typed prio to vs => anon_send_typed prio to vs
  | Call_anon_send_typed_normal to vs => anon_send_typed_normal to vs
  | Call_anon_send_exit to reason => anon_send_exit to reason
  | Call_anon_send_exit_handle to reason => anon_send_exit_handle to reason
  | Call_send_tuple_as from to msg => send_tuple_as from to msg
  | Call_send_tuple_as_prio from to prio msg =>
      send_tuple_as_prio from to prio msg
  | Call_anon_send_tuple to msg => anon_send_tuple to msg
  | Call_anon_send_tuple_prio to prio msg =>
      anon_send_tuple_prio to prio msg
  end.

(** The pointer of the handle a helper is asked to send to. *)
Definition target (h : helper_call) : option actor_id :=
  match h with
  | Call_send_as _ _ to _ | Call_send_as_normal _ to _
  | Call_anon_send _ to _ | Call_anon_send_normal to _
  | Call_send_tuple_as _ to _ | Call_send_tuple_as_prio _ to _ _
  | Call_anon_send_tuple to _ | Call_anon_send_tuple_prio to _ _ =>
      channel_ptr to
  | Call_send_as_typed _ _ to _ | Call_send_as_typed_normal _ to _
  | Call_anon_send_typed _ to _ | Call_anon_send_typed_normal to _ =>
      typed_ptr to
  | Call_anon_send_exit to _ => addr_ptr to
  | Call_anon_send_exit_handle to _ => actor_ptr to
  end.

(** The shape of the argument list the claim of a three-argument
    [enqueue] asks for. *)
Definition three_arguments (c : enqueue_call) : Prop :=
  exists a m msg, arguments c = [Arg_addr a; Arg_mid m; Arg_message msg].

(** The shape of the argument list the helpers pass. *)
Definition four_arguments (c : enqueue_call) : Prop :=
  exists a m msg,
    arguments c = [Arg_addr a; Arg_mid m; Arg_message msg; Arg_host None].

(** The claim of a three-argument [enqueue], for one call of a helper. *)
Definition delivers_through_three_argument_enqueue (h : helper_call)
    (w : world) : Prop :=
  exists cs, run_helper h w = Returned tt (w ++ cs)
             /\ Forall three_arguments cs.

(** The claim that [cb] fires once per shrink, for a wait that lasts for
    all of [wakeups]: [calls] counts the invocations of [cb]. *)
Definition cb_fires_once_per_shrink (expected : nat)
    (wakeups : list wakeup) (r : actor_registry) : Prop :=
  forall r' calls,
    await_running_count_equal expected S wakeups r 0
    = Some (r', calls) ->
    calls = shrinks (running_ r) (concat wakeups).

(** ** Sequences of helper calls *)

(** A block of helper calls, run in program order. *)
Fixpoint run_helpers (hs : list helper_call) : M unit :=
  match hs with
  | [] => mret tt
  | h :: rest => run_helper h ≫= fun _ => run_helpers rest
  end.

(** The calls of [enqueue] a helper makes when none was made before. *)
Definition calls_made (h : helper_call) : list enqueue_call :=
  match run_helper h [] with
  | Returned _ w => w
  | NullDereference => []
  end.

(** The helpers that take no sender. *)
Definition is_anonymous (h : helper_call) : bool :=
  match h with
  | Call_anon_send _ _ _ | Call_anon_send_normal _ _
  | Call_anon_send_typed _ _ _ | Call_anon_send_typed_normal _ _
  | Call_anon_send_exit _ _ | Call_anon_send_exit_handle _ _
  | Call_anon_send_tuple _ _ | Call_anon_send_tuple_prio _ _ _ => true
  | _ => false
  end.

(** Two calls that differ at most in their message id. *)
Definition same_but_mid (c1 c2 : enqueue_call) : Prop :=
  callee c1 = callee c2 /\ sender c1 = sender c2
  /\ content c1 = content c2 /\ host c1 = host c2.

(** ** The tracepoint macros ([caf/detail/tracepoint.hpp])

    A macro is a function on its argument list; an expansion that the
    preprocessor rejects (too few arguments, an undefined macro name) is
    [None]. *)

(** An argument of a macro call: a decimal literal or any other
    expression. *)
Inductive macro_arg :=
| Lit (n : nat)
| Expr (s : string).

(** [FOLLY_SDT_NARG_(_0, _1, ..., _9, N, ...)], line 206: its eleventh
    argument. *)
Definition FOLLY_SDT_NARG_ (args : list macro_arg) : option macro_arg :=
  args !! 10.

(** [FOLLY_SDT_NARG(...)], lines 207-208. *)
Definition FOLLY_SDT_NARG (va : list macro_arg) : option macro_arg :=
  FOLLY_SDT_NARG_
    (va ++ [Lit 9; Lit 8; Lit 7; Lit 6; Lit 5; Lit 4; Lit 3; Lit 2; Lit 1;
            Lit 0]).

(** The named operands of the probe's [asm] statement. *)
Inductive operand_name :=
| Name_S (n : nat)
| Name_A (n : nat).

(** [FOLLY_SDT_ARGFMT(no)], line 148: [%n[FOLLY_SDT_S##no]@%[FOLLY_SDT_A##no]],
    by the operands it refers to. *)
Definition FOLLY_SDT_ARGFMT (no : nat) : list operand_name :=
  [Name_S no; Name_A no].

(** [FOLLY_SDT_ARG_TEMPLATE_0] to [FOLLY_SDT_ARG_TEMPLATE_9], lines 149-158:
    each is its predecessor followed by [FOLLY_SDT_ARGFMT] of its number. *)
Fixpoint arg_template_chain (n : nat) : list operand_name :=
  match n with
  | O => []
  | S n' => arg_template_chain n' ++ FOLLY_SDT_ARGFMT (S n')
  end.

Definition FOLLY_SDT_ARG_TEMPLATE (n : nat) : option (list operand_name) :=
  if n <=? 9 then Some (arg_template_chain n) else None.

(** An operand of the [asm] statement: the size of an argument under the
    name [FOLLY_SDT_Sn], its value under [FOLLY_SDT_An], or the dummy of a
    probe without arguments. *)
Inductive operand :=
| Operand_size (n : nat) (x : macro_arg)
| Operand_value (n : nat) (x : macro_arg)
| Operand_dummy.

(** [FOLLY_SDT_ARG(n, x)], lines 123-125. *)
Definition FOLLY_SDT_ARG (n : nat) (x : macro_arg) : list operand :=
  [Operand_size n x; Operand_value n x].

(** [FOLLY_SDT_OPERANDS_0] to [FOLLY_SDT_OPERANDS_9], lines 128-145, called
    with the argument list [args]: macro number [n] takes [n] arguments,
    hands all but the last to its predecessor and appends
    [FOLLY_SDT_ARG(n, _n)]. *)
Fixpoint operands_chain (n : nat) (args : list macro_arg)
    : option (list operand) :=
  match n with
  | O => match args with [] => Some [Operand_dummy] | _ => None end
  | S O => match args with [x] => Some (FOLLY_SDT_ARG 1 x) | _ => None end
  | S (S _ as n') =>
      match reverse args with
      | [] => None
      | x :: init =>
          match operands_chain n' (reverse init) with
          | Some ops => Some (ops ++ FOLLY_SDT_ARG n x)
          | None => None
          end
      end
  end.

Definition FOLLY_SDT_OPERANDS (n : nat) (args : list macro_arg)
    : option (list operand) :=
  if n <=? 9 then operands_chain n args else None.

(** What [FOLLY_SDT_PROBE], lines 198-204, puts into the [asm] statement. *)
Record probe := mk_probe {
  probe_provider : string;
  probe_name : string;
  probe_has_semaphore : bool;
  probe_arg_template : list operand_name;
  probe_operands : list operand
}.

Definition FOLLY_SDT_PROBE (provider name : string) (has_semaphore : bool)
    (n : macro_arg) (arglist : list macro_arg) : option probe :=
  match n with
  | Lit k =>
      match FOLLY_SDT_ARG_TEMPLATE k, FOLLY_SDT_OPERANDS k arglist with
      | Some template, Some ops =>
          Some (mk_probe provider name has_semaphore template ops)
      | _, _ => None
      end
  | Expr _ => None
  end.

(** [FOLLY_SDT(provider, name, ...)], lines 212-214, through
    [FOLLY_SDT_PROBE_N], lines 209-210. *)
Definition FOLLY_SDT (provider name : string) (va : list macro_arg)
    : option probe :=
  match FOLLY_SDT_NARG (Lit 0 :: va) with
  | Some n => FOLLY_SDT_PROBE provider name false n va
  | None => None
  end.

(** The name an operand is bound to; the dummy has none of the two kinds. *)
Definition bound_name (o : operand) : option operand_name :=
  match o with
  | Operand_size n _ => Some (Name_S n)
  | Operand_value n _ => Some (Name_A n)
  | Operand_dummy => None
  end.

Definition bound_value (o : operand) : option macro_arg :=
  match o with
  | Operand_value _ x => Some x
  | _ => None
  end.

(** The operands of the arguments [args], numbered from [i]. *)
Fixpoint operand_list (i : nat) (args : list macro_arg) : list operand :=
  match args with
  | [] => []
  | x :: rest => FOLLY_SDT_ARG i x ++ operand_list (S i) rest
  end.

(** ** The test data of the serialization fixture *)

(** [float], [double], [caf::duration] and [caf::timestamp] with the [==]
    of the two that are compared; their headers are not among the
    sources. *)
Variable float32 float64 duration timestamp : Type.
Variable float64_eq : float64 -> float64 -> bool.
Variable timestamp_eq : timestamp -> timestamp -> bool.

(** [struct test_data], lines 32-67; the constructor of line 33 takes the
    fields in the order of their declaration. *)
Record test_data := mk_test_data {
  i32_ : Z;
  i64_ : Z;
  f32_ : float32;
  f64_ : float64;
  dur_ : duration;
  ts_ : timestamp;
  te_ : test_enum.t;
  str_ : string
}.

(** [operator==(const test_data&, const test_data&)], lines 62-66. *)
Definition test_data_eq (data other : test_data) : bool :=
  float64_eq (f64_ data) (f64_ other) && Z.eqb (i32_ data) (i32_ other)
  && Z.eqb (i64_ data) (i64_ other) && String.eqb (str_ data) (str_ other)
  && test_enum.eqb (te_ data) (te_ other)
  && timestamp_eq (ts_ data) (ts_ other).

(** * Properties *)

(** ** Message ids *)

Lemma is_high_with_high_priority (m : message_id) :
  is_high_priority (with_high_priority m) = true.
Proof.
  unfold is_high_priority, with_high_priority; cbn.
  rewrite Z.lor_spec, Z.shiftl_spec by lia.
  rewrite Z.sub_diag. apply orb_true_r.
Qed.

Lemma lor_below_pow2 (a b n : Z) :
  (0 <= n -> 0 <= a < 2 ^ n -> 0 <= b < 2 ^ n -> Z.lor a b < 2 ^ n)%Z.
Proof.
  intros Hn Ha Hb.
  assert (Hnonneg : (0 <= Z.lor a b)%Z) by (apply Z.lor_nonneg; lia).
  destruct (Z.eq_dec (Z.lor a b) 0%Z) as [E | E]; [rewrite E; lia |].
  assert (Hpos : (0 < n)%Z).
  { destruct (Z.eq_dec n 0%Z) as [-> | ?]; [| lia].
    exfalso; apply E.
    replace a with 0%Z by (cbn in Ha; lia).
    replace b with 0%Z by (cbn in Hb; lia). reflexivity. }
  apply Z.log2_lt_pow2; [lia |].
  rewrite Z.log2_lor by lia.
  apply Z.max_lub_lt.
  - destruct (Z.eq_dec a 0%Z) as [-> | ?];
      [cbn; lia | apply Z.log2_lt_pow2; lia].
  - destruct (Z.eq_dec b 0%Z) as [-> | ?];
      [cbn; lia | apply Z.log2_lt_pow2; lia].
Qed.

Lemma with_high_priority_in_range (m : message_id) :
  (priority_flag_bit < 64)%N -> message_id_in_range m ->
  message_id_in_range (with_high_priority m).
Proof.
  unfold message_id_in_range, with_high_priority, uint64_max; cbn.
  intros Hb [Hlo Hhi].
  assert (Hflag : (0 <= Z.shiftl 1 (Z.of_N priority_flag_bit) < 2 ^ 64)%Z).
  { rewrite Z.shiftl_1_l. split; [apply Z.pow_nonneg; lia |].
    apply Z.pow_lt_mono_r; lia. }
  split; [apply Z.lor_nonneg; lia |].
  enough (Z.lor (integer_value m) (Z.shiftl 1 (Z.of_N priority_flag_bit))
          < 2 ^ 64)%Z by lia.
  apply lor_below_pow2; lia.
Qed.

(** ** The send helpers *)

Lemma send_as_valid (from : actor) (prio : message_priority.t)
    (obj : actor_id) (vs : list value) (w : world) :
  send_as from prio (mk_channel (Some obj)) vs w
  = Returned tt
      (w ++ [mk_enqueue_call obj (address from)
               (if message_priority.eqb prio message_priority.high
                then with_high_priority default_message_id
                else default_message_id)
               (make_message vs) None]).
Proof. reflexivity. Qed.

Lemma send_as_null (from : actor) (prio : message_priority.t)
    (vs : list value) (w : world) :
  send_as from prio (mk_channel None) vs w = Returned tt w.
Proof. reflexivity. Qed.

Lemma anon_send_exit_valid (obj : actor_id) (reason : Z) (w : world) :
  anon_send_exit (mk_actor_addr (Some obj)) reason w
  = Returned tt
      (w ++ [mk_enqueue_call obj invalid_actor_addr
               (with_high_priority default_message_id)
               (make_message
                  [V_exit_msg (mk_exit_msg invalid_actor_addr reason)])
               None]).
Proof. reflexivity. Qed.

Lemma anon_send_exit_null (reason : Z) (w : world) :
  anon_send_exit (mk_actor_addr None) reason w = Returned tt w.
Proof. reflexivity. Qed.

(** What any helper does, by the pointer of its target. *)
Lemma run_helper_calls (h : helper_call) (w : world) :
  match target h with
  | None => run_helper h w = Returned tt w
  | Some obj =>
      exists a m msg,
        run_helper h w
        = Returned tt (w ++ [mk_enqueue_call obj a m msg None])
  end.
Proof.
  destruct h as [from prio [[obj|]] vs | from [[obj|]] vs
                | from prio [[obj|]] vs | from [[obj|]] vs
                | prio [[obj|]] vs | [[obj|]] vs
                | prio [[obj|]] vs | [[obj|]] vs
                | [[obj|]] reason | [[obj|]] reason
                | from [[obj|]] msg | from [[obj|]] prio msg
                | [[obj|]] msg | [[obj|]] prio msg];
    cbn [target channel_ptr typed_ptr addr_ptr actor_ptr];
    try reflexivity;
    unfold run_helper, send_as_normal, send_as_typed, send_as_typed_normal,
      anon_send_typed, anon_send_typed_normal, anon_send, anon_send_normal,
      anon_send_exit_handle, send_tuple_as, send_tuple_as_prio,
      anon_send_tuple, anon_send_tuple_prio, send_as_normal,
      actor_cast_channel, address;
    cbn [typed_ptr actor_ptr];
    rewrite ?send_as_valid, ?anon_send_exit_valid; eauto.
Qed.

(** C2, as amended: delivery goes through one [enqueue], which every helper
    of [send.hpp] calls with four arguments: the sender address, the
    message id, the message and a null execution-unit pointer.  A helper
    makes that call once on the object of a valid target and not at all
    for an invalid one. *)
Theorem helpers_deliver_through_enqueue (h : helper_call) (w : world) :
  exists cs,
    run_helper h w = Returned tt (w ++ cs)
    /\ Forall four_arguments cs
    /\ Forall (fun c => length (arguments c) = 4) cs
    /\ (callee <$> cs) = option_list (target h).
Proof.
  pose proof (run_helper_calls h w) as H.
  destruct (target h) as [obj |].
  - destruct H as (a & m & msg & ->).
    eexists; split; [reflexivity |].
    repeat split; repeat constructor.
    exists a, m, msg. reflexivity.
  - exists []. rewrite app_nil_r. repeat split; auto.
Qed.

(** C4: [anon_send_exit] to a valid address makes one call of [enqueue] on
    the target; the message id of the call has the high-priority flag set,
    the message is an [exit_msg] carrying [reason] and an invalid source,
    and the sender is the invalid address. *)
Theorem anon_send_exit_enqueues_high_priority_exit (obj : actor_id)
    (reason : Z) (w : world) :
  exists c,
    anon_send_exit (mk_actor_addr (Some obj)) reason w
    = Returned tt (w ++ [c])
    /\ callee c = obj
    /\ is_high_priority (mid c) = true
    /\ content c
       = make_message [V_exit_msg (mk_exit_msg invalid_actor_addr reason)]
    /\ sender c = invalid_actor_addr
    /\ addr_is_null (sender c) = true.
Proof.
  eexists. rewrite anon_send_exit_valid. split; [reflexivity |].
  cbn [callee mid content sender].
  repeat split. apply is_high_with_high_priority.
Qed.

(** C5: [send_as] to a valid channel makes one call of [enqueue] on the
    target, with the address of [from] and the message made of [vs].  Under
    high priority the message id of the call has the high-priority flag
    set; under normal priority it is the default message id, unchanged.
    With a default id that has the flag clear, the flag of the call is set
    exactly when [prio] is high. *)
Theorem send_as_enqueues_with_priority (from : actor)
    (prio : message_priority.t) (obj : actor_id) (vs : list value)
    (w : world) :
  exists c,
    send_as from prio (mk_channel (Some obj)) vs w = Returned tt (w ++ [c])
    /\ callee c = obj
    /\ sender c = address from
    /\ content c = make_message vs
    /\ (prio = message_priority.high -> is_high_priority (mid c) = true)
    /\ (prio = message_priority.normal -> mid c = default_message_id)
    /\ (is_high_priority default_message_id = false ->
        (is_high_priority (mid c) = true <-> prio = message_priority.high)).
Proof.
  eexists. rewrite send_as_valid.
  split; [reflexivity |]. cbn [callee mid content sender].
  pose proof (is_high_with_high_priority default_message_id) as Hhigh.
  destruct prio; cbn [message_priority.eqb];
    repeat split; intros; congruence.
Qed.

(** C6: [anon_send(prio, to, vs...)] behaves as
    [send_as(invalid_actor, prio, to, vs...)], and [anon_send(to, vs...)]
    as [send_as(invalid_actor, message_priority::normal, to, vs...)], in
    every world. *)
Theorem anon_send_is_send_as_invalid_actor (prio : message_priority.t)
    (to : channel) (vs : list value) (w : world) :
  anon_send prio to vs w = send_as invalid_actor prio to vs w
  /\ anon_send_normal to vs w
     = send_as invalid_actor message_priority.normal to vs w
  /\ match channel_ptr to with
     | Some obj =>
         exists c,
           anon_send prio to vs w = Returned tt (w ++ [c])
           /\ callee c = obj /\ sender c = invalid_actor_addr
     | None => anon_send prio to vs w = Returned tt w
     end.
Proof.
  split; [reflexivity |]. split; [reflexivity |].
  destruct to as [[obj |]]; cbn [channel_ptr]; [| reflexivity].
  unfold anon_send. rewrite send_as_valid. eexists; repeat split.
Qed.

(** C9: for an invalid target, [send_as], [anon_send] and [anon_send_exit]
    return and leave the world as it was: no call of [enqueue] is made.
    For every target, valid or not, the helpers return without
    dereferencing a null pointer. *)
Theorem null_target_is_ignored (from : actor) (prio : message_priority.t)
    (vs : list value) (reason : Z) (w : world) :
  send_as from prio (mk_channel None) vs w = Returned tt w
  /\ send_as_normal from (mk_channel None) vs w = Returned tt w
  /\ anon_send prio (mk_channel None) vs w = Returned tt w
  /\ anon_send_normal (mk_channel None) vs w = Returned tt w
  /\ anon_send_exit invalid_actor_addr reason w = Returned tt w
  /\ anon_send_exit_handle invalid_actor reason w = Returned tt w
  /\ (forall h, target h = None -> run_helper h w = Returned tt w)
  /\ (forall h, returned (run_helper h w) = true).
Proof.
  repeat split; try reflexivity.
  - intros h Hnull. pose proof (run_helper_calls h w) as H.
    rewrite Hnull in H. exact H.
  - intros h. pose proof (run_helper_calls h w) as H.
    destruct (target h); [destruct H as (? & ? & ? & ->) | rewrite H];
      reflexivity.
Qed.

(** C10: the deprecated helpers [send_tuple_as(from, to, msg)],
    [send_tuple_as(from, to, prio, msg)], [anon_send_tuple(to, msg)] and
    [anon_send_tuple(to, prio, msg)] behave as [send_as(from, to, msg)],
    [send_as(from, prio, to, msg)], [send_as(invalid_actor, to, msg)] and
    [send_as(invalid_actor, prio, to, msg)], in every world. *)
Theorem deprecated_helpers_are_send_as (from : actor) (to : channel)
    (prio : message_priority.t) (msg : message) (w : world) :
  send_tuple_as from to msg w = send_as_normal from to [V_message msg] w
  /\ send_tuple_as_prio from to prio msg w
     = send_as from prio to [V_message msg] w
  /\ anon_send_tuple to msg w
     = send_as_normal invalid_actor to [V_message msg] w
  /\ anon_send_tuple_prio to prio msg w
     = send_as invalid_actor prio to [V_message msg] w.
Proof. repeat split. Qed.

(** ** The registry *)

Lemma observed_0 (r : actor_registry) (ws : list wakeup) :
  observed r ws 0 = r.
Proof. unfold observed. rewrite take_0. reflexivity. Qed.

Lemma observed_S (r : actor_registry) (w : wakeup) (ws : list wakeup)
    (n : nat) :
  observed r (w :: ws) (S n) = observed (after_wakeup r w) ws n.
Proof. reflexivity. Qed.

Lemma await_now {St} (expected : nat) (cb : St -> St) (ws : list wakeup)
    (r : actor_registry) (s : St) :
  size (running_ r) = expected ->
  await_running_count_equal expected cb ws r s = Some (r, s).
Proof.
  intros H. apply Nat.eqb_eq in H.
  destruct ws; cbn [await_running_count_equal]; rewrite H; reflexivity.
Qed.

Lemma await_later {St} (expected : nat) (cb : St -> St) (w : wakeup)
    (ws : list wakeup) (r : actor_registry) (s : St) :
  size (running_ r) <> expected ->
  await_running_count_equal expected cb (w :: ws) r s
  = await_running_count_equal expected cb ws (after_wakeup r w) (cb s).
Proof.
  intros H. apply Nat.eqb_neq in H.
  cbn [await_running_count_equal]. rewrite H. reflexivity.
Qed.

Lemma await_blocked {St} (expected : nat) (cb : St -> St)
    (r : actor_registry) (s : St) :
  size (running_ r) <> expected ->
  await_running_count_equal expected cb [] r s = None.
Proof.
  intros H. apply Nat.eqb_neq in H.
  cbn [await_running_count_equal]. rewrite H. reflexivity.
Qed.

(** [await_running_count_equal(expected, cb)] returns at
    the first check, on entry or after a wake-up, at which the size of the
    running set equals [expected], and stays blocked while there is none;
    [cb] has then run once for each wake-up that went by, whatever the
    other threads did to the running set in between. *)
Theorem await_returns_at_first_match {St} (expected : nat) (cb : St -> St)
    (ws : list wakeup) (r : actor_registry) (s : St)
    (r' : actor_registry) (s' : St) :
  await_running_count_equal expected cb ws r s = Some (r', s')
  <-> exists n,
        n <= length ws
        /\ size (running_ (observed r ws n)) = expected
        /\ (forall m, m < n -> size (running_ (observed r ws m)) <> expected)
        /\ r' = observed r ws n
        /\ s' = Nat.iter n cb s.
Proof.
  revert r s. induction ws as [| w ws IH]; intros r s.
  - destruct (decide (size (running_ r) = expected)) as [E | E].
    + rewrite await_now by exact E. split.
      * intros [= <- <-]. exists 0. rewrite observed_0.
        repeat split; [lia | exact E | lia].
      * intros (n & Hn & _ & _ & -> & ->). cbn in Hn.
        replace n with 0 by lia. rewrite observed_0. reflexivity.
    + rewrite await_blocked by exact E. split; [discriminate |].
      intros (n & Hn & Hsize & _). cbn in Hn.
      replace n with 0 in Hsize by lia. rewrite observed_0 in Hsize.
      contradiction.
  - destruct (decide (size (running_ r) = expected)) as [E | E].
    + rewrite await_now by exact E. split.
      * intros [= <- <-]. exists 0. rewrite observed_0.
        repeat split; [lia | exact E | lia].
      * intros (n & _ & _ & Hmin & -> & ->).
        destruct n as [| n]; [rewrite observed_0; reflexivity |].
        exfalso. apply (Hmin 0); [lia | rewrite observed_0; exact E].
    + rewrite await_later by exact E. rewrite IH. split.
      * intros (n & Hn & Hsize & Hmin & -> & ->).
        exists (S n). rewrite observed_S.
        repeat split; [cbn; lia | exact Hsize | |].
        -- intros [| m] Hm; [rewrite observed_0; exact E |].
           rewrite observed_S. apply Hmin. lia.
        -- rewrite Nat.iter_succ_r. reflexivity.
      * intros (n & Hn & Hsize & Hmin & -> & ->).
        destruct n as [| n];
          [rewrite observed_0 in Hsize; contradiction |].
        exists n. rewrite observed_S in Hsize.
        repeat split; [cbn in Hn; lia | exact Hsize | |].
        -- intros m Hm. specialize (Hmin (S m)).
           rewrite observed_S in Hmin. apply Hmin. lia.
        -- rewrite Nat.iter_succ_r. reflexivity.
Qed.










(** ** The mailbox *)

Lemma pop_queued (mb : mailbox) :
  fst (pop mb) = queued mb !! 0
  /\ queued (snd (pop mb)) = drop 1 (queued mb)
  /\ (is_closed mb = true -> state (snd (pop mb)) = Closed).
Proof.
  unfold pop, queued, is_closed.
  destruct (high_lane mb) as [| h hs], (normal_lane mb) as [| n ns];
    cbn; repeat split; try (intros ->; reflexivity);
    destruct (state mb); intros; congruence.
Qed.

Lemma pop_empty (mb : mailbox) :
  queued mb = [] -> fst (pop mb) = None /\ queued (snd (pop mb)) = [].
Proof.
  intros H. destruct (pop_queued mb) as (Hfst & Hsnd & _).
  rewrite H in Hfst, Hsnd. split; assumption.
Qed.

Lemma pop_until_empty_queued (fuel : nat) (mb : mailbox) :
  length (queued mb) < fuel ->
  exists mb',
    pop_until_empty fuel mb = Some (queued mb, mb') /\ queued mb' = [].
Proof.
  revert mb. induction fuel as [| fuel IH]; intros mb Hfuel; [lia |].
  destruct (pop_queued mb) as (Hfst & Hsnd & _).
  cbn [pop_until_empty]. destruct (pop mb) as [[e |] mb1]; cbn in Hfst, Hsnd.
  - destruct (queued mb) as [| e' q] eqn:Hq; [discriminate |].
    injection Hfst as ->. cbn in Hsnd, Hfuel.
    destruct (IH mb1) as (mb' & -> & Hempty);
      [rewrite Hsnd, drop_0; lia |].
    exists mb'. rewrite Hsnd, drop_0. split; [reflexivity | exact Hempty].
  - destruct (queued mb) as [| e' q] eqn:Hq; [| discriminate].
    exists mb1. split; [reflexivity | exact Hsnd].
Qed.

Lemma push_envelope_closed (mb : mailbox) (e : envelope) :
  is_closed mb = true -> push_envelope mb e = mb.
Proof.
  unfold push_envelope, push, is_closed.
  destruct (state mb); try discriminate. reflexivity.
Qed.

Lemma push_envelope_open (mb : mailbox) (e : envelope) :
  is_closed mb = false ->
  high_lane (push_envelope mb e)
  = high_lane mb ++ List.filter env_is_high [e]
  /\ normal_lane (push_envelope mb e)
     = normal_lane mb ++ List.filter (fun x => negb (env_is_high x)) [e]
  /\ is_closed (push_envelope mb e) = false.
Proof.
  unfold push_envelope, push, is_closed. destruct e as [a m p].
  cbn [env_sender env_mid env_payload List.filter].
  destruct (state mb); try discriminate; intros _;
    destruct (env_is_high (mk_envelope a m p));
    cbn; rewrite ?app_nil_r; repeat split.
Qed.

Lemma push_all_lanes (es : list envelope) (mb : mailbox) :
  high_lane (push_all es mb)
  = high_lane mb ++ List.filter env_is_high (accepted mb es)
  /\ normal_lane (push_all es mb)
     = normal_lane mb
       ++ List.filter (fun x => negb (env_is_high x)) (accepted mb es)
  /\ is_closed (push_all es mb) = is_closed mb.
Proof.
  unfold accepted. revert mb.
  induction es as [| e es IH]; intros mb; cbn [push_all foldl].
  - destruct (is_closed mb); cbn; rewrite !app_nil_r; repeat split.
  - fold (push_all es (push_envelope mb e)).
    destruct (IH (push_envelope mb e)) as (Hh & Hn & Hc).
    rewrite Hh, Hn, Hc. clear IH Hh Hn Hc.
    destruct (is_closed mb) eqn:Hclosed.
    + rewrite (push_envelope_closed mb e Hclosed), Hclosed.
      repeat split.
    + destruct (push_envelope_open mb e Hclosed) as (-> & -> & ->).
      cbn [List.filter].
      destruct (env_is_high e); cbn [negb app];
        rewrite <- ?app_assoc, ?app_nil_r; repeat split.
Qed.

(** C3: after any sequence of pushes on any mailbox, popping until the
    mailbox reports empty returns the envelopes of the high-priority lane
    before those of the normal-priority lane, and each lane in the order
    of its pushes.  So a high-priority envelope pushed after
    normal-priority ones comes out before all of them. *)
Theorem pop_returns_high_before_normal_in_fifo_order (mb : mailbox)
    (es : list envelope) :
  (exists mb',
     drain (push_all es mb)
     = Some ((high_lane mb ++ List.filter env_is_high (accepted mb es))
             ++ (normal_lane mb
                 ++ List.filter (fun x => negb (env_is_high x))
                      (accepted mb es)),
             mb')
     /\ fst (pop mb') = None)
  /\ (forall ns h,
        forallb (fun x => negb (env_is_high x)) ns = true ->
        env_is_high h = true ->
        fst <$> drain (push_all (ns ++ [h]) new_mailbox) = Some (h :: ns)).
Proof.
  assert (Hdrain : forall m, exists mb',
             drain m = Some (queued m, mb') /\ fst (pop mb') = None).
  { intros m. destruct (pop_until_empty_queued (S (length (queued m))) m)
      as (mb' & Hrun & Hempty); [lia |].
    exists mb'. split; [exact Hrun | apply pop_empty, Hempty]. }
  split.
  - destruct (Hdrain (push_all es mb)) as (mb' & Hrun & Hnone).
    exists mb'. split; [| exact Hnone].
    rewrite Hrun. unfold queued.
    destruct (push_all_lanes es mb) as (-> & -> & _). reflexivity.
  - intros ns h Hns Hh.
    destruct (Hdrain (push_all (ns ++ [h]) new_mailbox))
      as (mb' & -> & _).
    cbn [fmap option_fmap option_map fst]. f_equal. unfold queued.
    destruct (push_all_lanes (ns ++ [h]) new_mailbox) as (-> & -> & _).
    unfold accepted; cbn [new_mailbox is_closed state high_lane normal_lane
                            app].
    rewrite !List.filter_app. cbn [List.filter]. rewrite Hh. cbn [negb].
    rewrite app_nil_r.
    assert (Hnone : List.filter env_is_high ns = []).
    { clear -Hns. induction ns as [| n ns IH]; [reflexivity |].
      cbn in Hns |- *. apply andb_prop in Hns as [Hn Hrest].
      destruct (env_is_high n); [discriminate | auto]. }
    assert (Hall : List.filter (fun x => negb (env_is_high x)) ns = ns).
    { clear -Hns. induction ns as [| n ns IH]; [reflexivity |].
      cbn in Hns |- *. apply andb_prop in Hns as [Hn Hrest].
      rewrite Hn, IH by exact Hrest. reflexivity. }
    rewrite Hnone, Hall. reflexivity.
Qed.

Lemma close_is_closed (mb : mailbox) : is_closed (close mb) = true.
Proof. reflexivity. Qed.

Lemma push_closed (from : actor_addr) (m : message_id) (payload : message)
    (mb : mailbox) :
  is_closed mb = true -> push from m payload mb = (Push_closed, mb).
Proof.
  unfold push, is_closed. destruct (state mb); try discriminate.
  reflexivity.
Qed.

Lemma is_closed_state (mb : mailbox) :
  is_closed mb = true <-> state mb = Closed.
Proof. unfold is_closed. destruct (state mb); split; congruence. Qed.

(** On a closed mailbox every interleaving of the operations has its
    pushes rejected and its pops walk down the queue that was there. *)
Lemma run_closed (ops : list mailbox_op) (mb : mailbox) :
  is_closed mb = true ->
  Forall (eq Push_closed) (push_results (fst (run ops mb)))
  /\ pop_results (fst (run ops mb))
     = (fun i => queued mb !! i)
         <$> seq 0 (length (pop_results (fst (run ops mb))))
  /\ queued (snd (run ops mb))
     = drop (length (pop_results (fst (run ops mb)))) (queued mb)
  /\ is_closed (snd (run ops mb)) = true.
Proof.
  revert mb. induction ops as [| op ops IH]; intros mb Hclosed.
  - cbn. rewrite drop_0. repeat split; [constructor | exact Hclosed].
  - cbn [run]. destruct op as [e | |]; cbn [step].
    + rewrite push_closed by exact Hclosed.
      destruct (IH mb Hclosed) as (Hpush & Hpop & Hq & Hc).
      destruct (run ops mb) as [rs mb'].
      cbn in *. repeat split; auto.
    + destruct (pop_queued mb) as (Hfst & Hsnd & Hstate).
      destruct (pop mb) as [e mb1]. cbn [fst snd] in Hfst, Hsnd, Hstate.
      assert (Hclosed1 : is_closed mb1 = true)
        by (apply is_closed_state, Hstate, Hclosed).
      destruct (IH mb1 Hclosed1) as (Hpush & Hpop & Hq & Hc).
      destruct (run ops mb1) as [rs mb'].
      cbn [fst snd push_results pop_results omap list_omap] in *.
      repeat split; [exact Hpush | | | exact Hc].
      * cbn [length seq fmap list_fmap]. rewrite <- Hfst. f_equal.
        rewrite Hpop at 1. rewrite <- fmap_S_seq, <- list_fmap_compose.
        apply list_fmap_ext. intros _ i _. cbn.
        rewrite Hsnd, lookup_drop. reflexivity.
      * cbn [length]. rewrite Hq, Hsnd, drop_drop. f_equal.
    + destruct (IH (close mb) (close_is_closed mb))
        as (Hpush & Hpop & Hq & Hc).
      destruct (run ops (close mb)) as [rs mb'].
      cbn in *. repeat split; auto.
Qed.

(** The call of [enqueue] that [anon_send_exit] and a high-priority [send_as]
    make lands in the high-priority lane of an open mailbox. *)
Lemma deliver_high_priority (c : enqueue_call) (mb : mailbox) :
  is_high_priority (mid c) = true -> is_closed mb = false ->
  high_lane (deliver c mb)
  = high_lane mb ++ [mk_envelope (sender c) (mid c) (content c)]
  /\ normal_lane (deliver c mb) = normal_lane mb.
Proof.
  intros Hhigh Hopen. unfold deliver.
  pose proof (push_envelope_open mb
                (mk_envelope (sender c) (mid c) (content c)) Hopen)
    as (Hh & Hn & _).
  unfold push_envelope in Hh, Hn.
  cbn [env_sender env_mid env_payload List.filter] in Hh, Hn.
  unfold env_is_high in Hh, Hn. cbn [env_mid] in Hh, Hn.
  rewrite Hhigh in Hh, Hn. cbn [negb] in Hn.
  rewrite app_nil_r in Hn. split; assumption.
Qed.

(** C7: [close] is idempotent.  After it, in every interleaving of further
    pushes, pops and closes, each push returns Closed and enqueues
    nothing, and the pops return the envelopes queued before the close,
    high-priority lane first and each lane in FIFO order, and report empty
    from then on. *)
Theorem close_rejects_pushes_and_drains (mb : mailbox)
    (ops : list mailbox_op) :
  close (close mb) = close mb
  /\ Forall (eq Push_closed) (push_results (fst (run ops (close mb))))
  /\ pop_results (fst (run ops (close mb)))
     = (fun i => (high_lane mb ++ normal_lane mb) !! i)
         <$> seq 0 (length (pop_results (fst (run ops (close mb)))))
  /\ queued (snd (run ops (close mb)))
     = drop (length (pop_results (fst (run ops (close mb)))))
         (high_lane mb ++ normal_lane mb)
  /\ state (snd (run ops (close mb))) = Closed.
Proof.
  split; [reflexivity |].
  destruct (run_closed ops (close mb) (close_is_closed mb))
    as (Hpush & Hpop & Hq & Hc).
  repeat split; [exact Hpush | exact Hpop | exact Hq |].
  apply is_closed_state, Hc.
Qed.

(** ** More on the send helpers *)

Ltac helper_cases h :=
  destruct h as [from prio [[obj|]] vs | from [[obj|]] vs
                | from prio [[obj|]] vs | from [[obj|]] vs
                | prio [[obj|]] vs | [[obj|]] vs
                | prio [[obj|]] vs | [[obj|]] vs
                | [[obj|]] reason | [[obj|]] reason
                | from [[obj|]] msg | from [[obj|]] prio msg
                | [[obj|]] msg | [[obj|]] prio msg];
  unfold calls_made, run_helper, send_as_typed, send_as_typed_normal,
    anon_send_typed, anon_send_typed_normal, anon_send, anon_send_normal,
    anon_send_exit_handle, send_tuple_as, send_tuple_as_prio,
    anon_send_tuple, anon_send_tuple_prio, send_as_normal,
    actor_cast_channel, address;
  cbn [typed_ptr actor_ptr];
  rewrite ?send_as_valid, ?anon_send_exit_valid, ?send_as_null,
    ?anon_send_exit_null.

(** What a helper adds does not depend on the calls made before it. *)
Lemma run_helper_frame (h : helper_call) (w : world) :
  run_helper h w = Returned tt (w ++ calls_made h).
Proof. helper_cases h; rewrite ?app_nil_r; reflexivity. Qed.

Lemma calls_made_callee (h : helper_call) :
  callee <$> calls_made h = option_list (target h).
Proof. helper_cases h; reflexivity. Qed.

(** X1: a block of helper calls returns, and the calls of [enqueue] it adds
    are those of its helpers one after the other, in program order; they are
    made on the valid targets of the block, in that order, and the calls
    made before the block stay as they were. *)
Theorem run_helpers_in_program_order (hs : list helper_call) (w : world) :
  run_helpers hs w = Returned tt (w ++ flat_map calls_made hs)
  /\ callee <$> flat_map calls_made hs = omap target hs.
Proof.
  split.
  - revert w. induction hs as [| h hs IH]; intros w.
    + cbn. rewrite app_nil_r. reflexivity.
    + cbn [run_helpers flat_map]. unfold mbind, M_bind.
      rewrite run_helper_frame, IH, app_assoc. reflexivity.
  - induction hs as [| h hs IH]; [reflexivity |].
    cbn [flat_map omap list_omap]. rewrite fmap_app, IH, calls_made_callee.
    destruct (target h); reflexivity.
Qed.

(** X2: [anon_send_exit(to, reason)] does what an anonymous send of the exit
    message at high priority to the same object does, for a valid and for an
    invalid [to]. *)
Theorem anon_send_exit_is_high_priority_anon_send (to : actor_addr)
    (reason : Z) (w : world) :
  anon_send_exit to reason w
  = anon_send message_priority.high (mk_channel (addr_ptr to))
      [V_exit_msg (mk_exit_msg invalid_actor_addr reason)] w.
Proof. destruct to as [[obj |]]; reflexivity. Qed.

(** X3: the priority given to [send_as] shows in the message id of the call
    and nowhere else: with two priorities the same calls are made, on the
    same object, with the same sender, message and host. *)
Theorem priority_changes_only_the_message_id (from : actor)
    (prio1 prio2 : message_priority.t) (to : channel) (vs : list value)
    (w : world) :
  exists cs1 cs2,
    send_as from prio1 to vs w = Returned tt (w ++ cs1)
    /\ send_as from prio2 to vs w = Returned tt (w ++ cs2)
    /\ Forall2 same_but_mid cs1 cs2.
Proof.
  destruct to as [[obj |]].
  - rewrite !send_as_valid. do 2 eexists.
    split; [reflexivity |]. split; [reflexivity |].
    constructor; [| constructor]. repeat split.
  - rewrite !send_as_null. exists [], [].
    rewrite app_nil_r. repeat split. constructor.
Qed.

(** X4: every call of [enqueue] made by an anonymous helper ([anon_send],
    [anon_send_exit], [anon_send_tuple] and their overloads) carries the
    invalid sender address. *)
Theorem anonymous_helpers_pass_invalid_sender (h : helper_call) :
  is_anonymous h = true ->
  Forall (fun c => sender c = invalid_actor_addr) (calls_made h).
Proof.
  intros Hanon.
  helper_cases h; try discriminate Hanon; repeat constructor.
Qed.

(** ** More on the wait for the running count *)

(** X5: wake-ups that come after the return do not matter, and a caller
    still blocked after [ws] goes on with the registry and the callback
    state that [ws] left. *)
Theorem await_over_appended_wakeups {St} (expected : nat) (cb : St -> St)
    (ws ws' : list wakeup) (r : actor_registry) (s : St) :
  await_running_count_equal expected cb (ws ++ ws') r s
  = match await_running_count_equal expected cb ws r s with
    | Some result => Some result
    | None =>
        await_running_count_equal expected cb ws'
          (observed r ws (length ws)) (Nat.iter (length ws) cb s)
    end.
Proof.
  revert r s. induction ws as [| w ws IH]; intros r s;
    destruct (decide (size (running_ r) = expected)) as [E | E].
  - rewrite !await_now by exact E. reflexivity.
  - rewrite await_blocked by exact E. rewrite observed_0. reflexivity.
  - rewrite !await_now by exact E. reflexivity.
  - cbn [app length]. rewrite !await_later by exact E.
    rewrite IH, observed_S, Nat.iter_succ_r. reflexivity.
Qed.

Lemma await_counts_from {expected : nat} (ws : list wakeup)
    (r r' : actor_registry) (k n : nat) :
  await_running_count_equal expected S ws r k = Some (r', n) ->
  k <= n <= k + length ws /\ (n = k <-> size (running_ r) = expected).
Proof.
  revert r k. induction ws as [| w ws IH]; intros r k;
    destruct (decide (size (running_ r) = expected)) as [E | E].
  - rewrite await_now by exact E. intros [= <- <-]. cbn. split; [lia | tauto].
  - rewrite await_blocked by exact E. discriminate.
  - rewrite await_now by exact E. intros [= <- <-]. cbn. split; [lia | tauto].
  - rewrite await_later by exact E. intros H.
    apply IH in H as [Hbound _]. cbn [length]. split; [lia |].
    split; [lia | contradiction].
Qed.

(** X6: when the wait returns, the callback has run at most once per
    wake-up, and not at all exactly when the running count was the expected
    one on entry. *)
Theorem await_callback_count (expected : nat) (ws : list wakeup)
    (r r' : actor_registry) (calls : nat) :
  await_running_count_equal expected S ws r 0 = Some (r', calls) ->
  calls <= length ws /\ (calls = 0 <-> size (running_ r) = expected).
Proof.
  intros H. apply await_counts_from in H as [Hbound Hzero].
  split; [lia | exact Hzero].
Qed.

(** ** The tracepoint macros *)

(** X7: for up to nine probe arguments, [FOLLY_SDT_NARG(0, args...)] is
    their number. *)
Theorem FOLLY_SDT_NARG_counts (va : list macro_arg) :
  length va <= 9 -> FOLLY_SDT_NARG (Lit 0 :: va) = Some (Lit (length va)).
Proof.
  intros Hlen.
  do 10 (destruct va as [| ? va]; [reflexivity |]).
  cbn in Hlen. lia.
Qed.

(** X8: with ten or more probe arguments, [FOLLY_SDT_NARG(0, args...)] is
    the tenth argument, not a number of arguments. *)
Theorem FOLLY_SDT_NARG_overflows (va : list macro_arg) :
  10 <= length va -> FOLLY_SDT_NARG (Lit 0 :: va) = va !! 9.
Proof.
  intros Hlen. unfold FOLLY_SDT_NARG, FOLLY_SDT_NARG_.
  change ((Lit 0 :: va) ++ ?l) with (Lit 0 :: (va ++ l)).
  cbn [lookup list_lookup]. apply lookup_app_l. lia.
Qed.

Lemma operand_list_app (i : nat) (l : list macro_arg) (x : macro_arg) :
  operand_list i (l ++ [x])
  = operand_list i l ++ FOLLY_SDT_ARG (i + length l) x.
Proof.
  revert i. induction l as [| y l IH]; intros i.
  - cbn. rewrite Nat.add_0_r. reflexivity.
  - cbn [app operand_list length]. rewrite IH, Nat.add_succ_r.
    rewrite <- app_assoc. reflexivity.
Qed.

Lemma operands_chain_step (k : nat) (args : list macro_arg) :
  operands_chain (S (S k)) args
  = match reverse args with
    | [] => None
    | x :: init =>
        match operands_chain (S k) (reverse init) with
        | Some ops => Some (ops ++ FOLLY_SDT_ARG (S (S k)) x)
        | None => None
        end
    end.
Proof. reflexivity. Qed.

(** The chain of [FOLLY_SDT_OPERANDS_n] in closed form: it expands when it
    is given [n] arguments, and numbers them from one. *)
Lemma operands_chain_spec (n : nat) (args : list macro_arg) :
  operands_chain n args
  = if decide (length args = n)
    then Some match n with
              | O => [Operand_dummy]
              | S _ => operand_list 1 args
              end
    else None.
Proof.
  revert args. induction n as [| n IH]; intros args.
  - destruct args; reflexivity.
  - destruct n as [| k].
    + destruct args as [| x [| y args]]; try reflexivity.
    + rewrite operands_chain_step.
      destruct (reverse args) as [| x init] eqn:Hrev.
      * assert (Hlen : length args = 0)
          by (rewrite <- length_reverse, Hrev; reflexivity).
        case_decide; [lia | reflexivity].
      * assert (Hargs : args = reverse init ++ [x]).
        { rewrite <- (reverse_involutive args), Hrev, reverse_cons.
          reflexivity. }
        rewrite IH, Hargs, length_app. cbn [length].
        repeat case_decide; try lia; [| reflexivity].
        rewrite operand_list_app. do 3 f_equal. lia.
Qed.

Lemma operand_list_names (args : list macro_arg) :
  omap bound_name (operand_list 1 args) = arg_template_chain (length args).
Proof.
  induction args as [| x args IH] using rev_ind; [reflexivity |].
  rewrite operand_list_app, omap_app, IH, length_app, Nat.add_1_r.
  reflexivity.
Qed.

Lemma operand_list_values (i : nat) (args : list macro_arg) :
  omap bound_value (operand_list i args) = args.
Proof.
  revert i. induction args as [| x args IH]; intros i; [reflexivity |].
  cbn. rewrite IH. reflexivity.
Qed.

(** X9: for up to nine arguments, [FOLLY_SDT] expands to a probe without
    semaphore.  Without arguments its only operand is the dummy and its
    argument template is empty; with arguments its operands are the size and
    the value of each argument, numbered from one.  The operands bind, in
    order, exactly the names the argument template refers to, and the value
    operands are the arguments, in order. *)
Theorem FOLLY_SDT_binds_what_it_references (provider name : string)
    (va : list macro_arg) :
  length va <= 9 ->
  exists p,
    FOLLY_SDT provider name va = Some p
    /\ probe_provider p = provider
    /\ probe_name p = name
    /\ probe_has_semaphore p = false
    /\ probe_operands p
       = match va with
         | [] => [Operand_dummy]
         | _ :: _ => operand_list 1 va
         end
    /\ probe_arg_template p = arg_template_chain (length va)
    /\ omap bound_name (probe_operands p) = probe_arg_template p
    /\ omap bound_value (probe_operands p) = va.
Proof.
  intros Hlen. unfold FOLLY_SDT.
  rewrite FOLLY_SDT_NARG_counts by exact Hlen.
  unfold FOLLY_SDT_PROBE, FOLLY_SDT_ARG_TEMPLATE, FOLLY_SDT_OPERANDS.
  apply Nat.leb_le in Hlen as Hleb. rewrite Hleb, operands_chain_spec.
  case_decide; [| congruence].
  eexists. split; [reflexivity |]. cbn. repeat split.
  - destruct va; reflexivity.
  - destruct va as [| x va]; [reflexivity |].
    cbn [length]. apply (operand_list_names (x :: va)).
  - destruct va as [| x va]; [reflexivity |].
    cbn [length]. apply operand_list_values.
Qed.

(** X10: with ten or more arguments [FOLLY_SDT] has no expansion. *)
Theorem FOLLY_SDT_rejects_ten_arguments (provider name : string)
    (va : list macro_arg) :
  10 <= length va -> FOLLY_SDT provider name va = None.
Proof.
  intros Hlen. unfold FOLLY_SDT.
  rewrite FOLLY_SDT_NARG_overflows by exact Hlen.
  destruct (va !! 9) as [[k | e] |]; try reflexivity.
  unfold FOLLY_SDT_PROBE, FOLLY_SDT_ARG_TEMPLATE, FOLLY_SDT_OPERANDS.
  destruct (k <=? 9) eqn:Hk; [| reflexivity].
  apply Nat.leb_le in Hk. rewrite operands_chain_spec.
  case_decide; [lia | reflexivity].
Qed.

(** ** The equality of the test data *)

(** X11: [operator==] on [test_data] holds exactly when the six fields it
    compares agree, and the fields [f32_] and [dur_] of either side do not
    bear on it. *)
Theorem test_data_eq_compares_six_fields (x y : test_data)
    (f f' : float32) (d d' : duration) :
  (test_data_eq x y = true
   <-> float64_eq (f64_ x) (f64_ y) = true
       /\ i32_ x = i32_ y /\ i64_ x = i64_ y /\ str_ x = str_ y
       /\ te_ x = te_ y /\ timestamp_eq (ts_ x) (ts_ y) = true)
  /\ test_data_eq
       (mk_test_data (i32_ x) (i64_ x) f (f64_ x) d (ts_ x) (te_ x) (str_ x))
       (mk_test_data (i32_ y) (i64_ y) f' (f64_ y) d' (ts_ y) (te_ y)
          (str_ y))
     = test_data_eq x y.
Proof.
  split; [| reflexivity].
  unfold test_data_eq.
  rewrite !andb_true_iff, !Z.eqb_eq, String.eqb_eq.
  assert (Henum : test_enum.eqb (te_ x) (te_ y) = true <-> te_ x = te_ y)
    by (destruct (te_ x), (te_ y); cbn; split; congruence).
  rewrite Henum. tauto.
Qed.

(** X12: [operator==] on [test_data] is symmetric when the comparisons of
    doubles and of timestamps are. *)
Theorem test_data_eq_symmetric (x y : test_data) :
  (forall u v, float64_eq u v = float64_eq v u) ->
  (forall u v, timestamp_eq u v = timestamp_eq v u) ->
  test_data_eq x y = test_data_eq y x.
Proof.
  intros Hf Ht. unfold test_data_eq.
  rewrite (Hf (f64_ x)), (Ht (ts_ x)), (Z.eqb_sym (i32_ x)),
    (Z.eqb_sym (i64_ x)), (String.eqb_sym (str_ x)).
  do 2 f_equal. destruct (te_ x), (te_ y); reflexivity.
Qed.

(** X13: with a timestamp that compares equal to itself, a [test_data]
    compares equal to itself exactly when its double [f64_] does. *)
Theorem test_data_eq_self (x : test_data) :
  timestamp_eq (ts_ x) (ts_ x) = true ->
  test_data_eq x x = float64_eq (f64_ x) (f64_ x).
Proof.
  intros Ht. unfold test_data_eq.
  rewrite Ht, !Z.eqb_refl, String.eqb_refl.
  destruct (te_ x); cbn; rewrite !andb_true_r; reflexivity.
Qed.

End Caf.

(** * The properties at concrete inputs

    The priority flag is put at bit 61, the default message id is zero and
    [make_message] keeps its values as they are. *)

(** C1: two actors run and the caller waits for none; both are removed
    before the caller wakes up.  The call returns with an empty running set,
    as the claim says, and [cb] has run once although the running set shrank
    twice; the header says of [cb] that it is invoked "every time the set of
    running actors shrinks". *)
Theorem await_invokes_cb_once_for_two_shrinks :
  await_running_count_equal 0 S [[Removed 1%N; Removed 2%N]]
    (mk_actor_registry {[1%N; 2%N]} ∅ ∅) 0
  = Some (mk_actor_registry ∅ ∅ ∅, 1)
  /\ size (running_ (mk_actor_registry ∅ ∅ ∅)) = 0
  /\ shrinks {[1%N; 2%N]} (concat [[Removed 1%N; Removed 2%N]]) = 2.
Proof. repeat split; vm_compute; reflexivity. Qed.

(** The same input against the statement that [cb] fires once per
    shrink. *)
Lemma cb_fires_once_for_two_shrinks :
  ~ cb_fires_once_per_shrink 0 [[Removed 1%N; Removed 2%N]]
      (mk_actor_registry {[1%N; 2%N]} ∅ ∅).
Proof.
  intros H.
  assert (E : await_running_count_equal 0 S [[Removed 1%N; Removed 2%N]]
                (mk_actor_registry {[1%N; 2%N]} ∅ ∅) 0
              = Some (mk_actor_registry ∅ ∅ ∅, 1))
    by (vm_compute; reflexivity).
  apply H in E. vm_compute in E. discriminate E.
Qed.

(** A wake-up that follows no update still runs [cb]: one shrink, two
    invocations. *)
Example cb_fires_on_wakeup_without_shrink :
  snd <$> await_running_count_equal 0 S [[]; [Removed 1%N]]
            (mk_actor_registry {[1%N]} ∅ ∅) 0 = Some 2
  /\ shrinks {[1%N]} (concat [[]; [Removed 1%N]]) = 1.
Proof. split; vm_compute; reflexivity. Qed.

Lemma await_returns_at_first_match_witness :
  exists n,
    n <= length [[Removed 1%N]; [Removed 2%N]; [Inserted 3%N]]
    /\ size (running_
               (observed (mk_actor_registry {[1%N; 2%N]} ∅ ∅)
                  [[Removed 1%N]; [Removed 2%N]; [Inserted 3%N]] n)) = 0
    /\ (forall m, m < n ->
        size (running_
                (observed (mk_actor_registry {[1%N; 2%N]} ∅ ∅)
                   [[Removed 1%N]; [Removed 2%N]; [Inserted 3%N]] m)) <> 0)
    /\ mk_actor_registry ∅ ∅ ∅
       = observed (mk_actor_registry {[1%N; 2%N]} ∅ ∅)
           [[Removed 1%N]; [Removed 2%N]; [Inserted 3%N]] n
    /\ 2 = Nat.iter n S 0.
Proof.
  apply (await_returns_at_first_match 0 S
           [[Removed 1%N]; [Removed 2%N]; [Inserted 3%N]]
           (mk_actor_registry {[1%N; 2%N]} ∅ ∅) 0
           (mk_actor_registry ∅ ∅ ∅) 2).
  vm_compute. reflexivity.
Defined.

(** C2: [send_as] to a valid channel calls [enqueue] with a fourth
    argument. *)
Lemma send_as_passes_four_arguments :
  ~ delivers_through_three_argument_enqueue 61 (mk_message_id 0)
      (fun vs => vs)
      (Call_send_as invalid_actor message_priority.normal
         (mk_channel (Some 1%N)) [V_int 42])
      [].
Proof.
  intros (cs & Hrun & Hall).
  cbn in Hrun. injection Hrun as <-.
  inversion Hall as [| c cs' (a & m & msg & Hargs) _].
  discriminate Hargs.
Qed.

Lemma pop_order_witness :
  forallb (fun x => negb (env_is_high 61 x))
    [mk_envelope invalid_actor_addr (mk_message_id 0) [V_int 1];
     mk_envelope invalid_actor_addr (mk_message_id 0) [V_int 2];
     mk_envelope invalid_actor_addr (mk_message_id 0) [V_int 3]] = true
  /\ env_is_high 61
       (mk_envelope invalid_actor_addr (mk_message_id (2 ^ 61))
          [V_string "urgent"]) = true
  /\ fst <$> drain
       (push_all 61
          ([mk_envelope invalid_actor_addr (mk_message_id 0) [V_int 1];
            mk_envelope invalid_actor_addr (mk_message_id 0) [V_int 2];
            mk_envelope invalid_actor_addr (mk_message_id 0) [V_int 3]]
           ++ [mk_envelope invalid_actor_addr (mk_message_id (2 ^ 61))
                 [V_string "urgent"]])
          new_mailbox)
     = Some
         (mk_envelope invalid_actor_addr (mk_message_id (2 ^ 61))
            [V_string "urgent"]
          :: [mk_envelope invalid_actor_addr (mk_message_id 0) [V_int 1];
              mk_envelope invalid_actor_addr (mk_message_id 0) [V_int 2];
              mk_envelope invalid_actor_addr (mk_message_id 0) [V_int 3]]).
Proof.
  split; [reflexivity |]. split; [reflexivity |].
  apply (proj2 (pop_returns_high_before_normal_in_fifo_order 61
                  new_mailbox [])); reflexivity.
Defined.

Lemma send_as_enqueues_with_priority_witness :
  is_high_priority 61 (mk_message_id 0) = false
  /\ exists c,
       send_as 61 (mk_message_id 0) (fun vs => vs) (mk_actor (Some 1%N))
         message_priority.high (mk_channel (Some 2%N)) [V_int 42] []
       = Returned tt ([] ++ [c])
       /\ callee c = 2%N
       /\ sender c = address (mk_actor (Some 1%N))
       /\ content c = [V_int 42]
       /\ is_high_priority 61 (mid c) = true.
Proof.
  split; [reflexivity |].
  destruct (send_as_enqueues_with_priority 61 (mk_message_id 0)
              (fun vs => vs) (mk_actor (Some 1%N)) message_priority.high 2%N
              [V_int 42] [])
    as (c & Hrun & Hcallee & Hsender & Hcontent & Hhigh & _ & Hiff).
  exists c. repeat split; try assumption.
  apply (Hiff eq_refl). reflexivity.
Defined.

Lemma null_target_is_ignored_witness :
  target (Call_anon_send_exit invalid_actor_addr 7) = None
  /\ run_helper 61 (mk_message_id 0) (fun vs => vs)
       (Call_anon_send_exit invalid_actor_addr 7) []
     = Returned tt [].
Proof.
  split; [reflexivity |].
  apply (null_target_is_ignored 61 (mk_message_id 0) (fun vs => vs)
           invalid_actor message_priority.normal [] 7 []).
  reflexivity.
Defined.

Lemma anonymous_helpers_pass_invalid_sender_witness :
  is_anonymous (Call_anon_send_exit (mk_actor_addr (Some 3%N)) 9) = true
  /\ Forall (fun c => sender c = invalid_actor_addr)
       (calls_made 61 (mk_message_id 0) (fun vs => vs)
          (Call_anon_send_exit (mk_actor_addr (Some 3%N)) 9)).
Proof.
  split; [reflexivity |].
  apply (anonymous_helpers_pass_invalid_sender 61 (mk_message_id 0)
           (fun vs => vs) (Call_anon_send_exit (mk_actor_addr (Some 3%N)) 9)).
  reflexivity.
Defined.

Lemma await_callback_count_witness :
  await_running_count_equal 0 S [[Removed 1%N]; [Removed 2%N]; []]
    (mk_actor_registry {[1%N; 2%N]} ∅ ∅) 0
  = Some (mk_actor_registry ∅ ∅ ∅, 2)
  /\ 2 <= length [[Removed 1%N]; [Removed 2%N]; ([] : wakeup)]
  /\ (2 = 0 <-> size (running_ (mk_actor_registry {[1%N; 2%N]} ∅ ∅)) = 0).
Proof.
  assert (E : await_running_count_equal 0 S [[Removed 1%N]; [Removed 2%N]; []]
                (mk_actor_registry {[1%N; 2%N]} ∅ ∅) 0
              = Some (mk_actor_registry ∅ ∅ ∅, 2))
    by (vm_compute; reflexivity).
  split; [exact E |].
  exact (await_callback_count 0 [[Removed 1%N]; [Removed 2%N]; []]
           (mk_actor_registry {[1%N; 2%N]} ∅ ∅) (mk_actor_registry ∅ ∅ ∅) 2
           E).
Defined.

Lemma FOLLY_SDT_NARG_counts_witness :
  length [Expr "id"; Expr "size"] <= 9
  /\ FOLLY_SDT_NARG (Lit 0 :: [Expr "id"; Expr "size"]) = Some (Lit 2).
Proof.
  split; [cbn; lia |].
  apply (FOLLY_SDT_NARG_counts [Expr "id"; Expr "size"]). cbn; lia.
Defined.

Lemma FOLLY_SDT_NARG_overflows_witness :
  10 <= length (Expr <$> ["a"; "b"; "c"; "d"; "e"; "f"; "g"; "h"; "i"; "j"])
  /\ FOLLY_SDT_NARG
       (Lit 0 :: (Expr <$> ["a"; "b"; "c"; "d"; "e"; "f"; "g"; "h"; "i"; "j"]))
     = Some (Expr "j").
Proof.
  split; [cbn; lia |].
  rewrite (FOLLY_SDT_NARG_overflows
             (Expr <$> ["a"; "b"; "c"; "d"; "e"; "f"; "g"; "h"; "i"; "j"]))
    by (cbn; lia).
  reflexivity.
Defined.

Lemma FOLLY_SDT_binds_what_it_references_witness :
  length [Expr "id"; Expr "size"] <= 9
  /\ exists p,
       FOLLY_SDT "caf" "enqueue" [Expr "id"; Expr "size"] = Some p
       /\ probe_provider p = "caf"
       /\ probe_name p = "enqueue"
       /\ probe_has_semaphore p = false
       /\ probe_operands p
          = [Operand_size 1 (Expr "id"); Operand_value 1 (Expr "id");
             Operand_size 2 (Expr "size"); Operand_value 2 (Expr "size")]
       /\ probe_arg_template p = arg_template_chain 2
       /\ omap bound_name (probe_operands p) = probe_arg_template p
       /\ omap bound_value (probe_operands p) = [Expr "id"; Expr "size"].
Proof.
  split; [cbn; lia |].
  apply (FOLLY_SDT_binds_what_it_references "caf" "enqueue"
           [Expr "id"; Expr "size"]).
  cbn; lia.
Defined.

Lemma FOLLY_SDT_rejects_ten_arguments_witness :
  10 <= length (Lit <$> [1; 2; 3; 4; 5; 6; 7; 8; 9; 3])
  /\ FOLLY_SDT "caf" "enqueue" (Lit <$> [1; 2; 3; 4; 5; 6; 7; 8; 9; 3]) = None.
Proof.
  split; [cbn; lia |].
  apply (FOLLY_SDT_rejects_ten_arguments "caf" "enqueue"
           (Lit <$> [1; 2; 3; 4; 5; 6; 7; 8; 9; 3])).
  cbn; lia.
Defined.

Lemma test_data_eq_symmetric_witness :
  (forall u v : Z, Z.eqb u v = Z.eqb v u)
  /\ test_data_eq unit Z unit Z Z.eqb Z.eqb
       (mk_test_data unit Z unit Z (-345) 7 tt 543%Z tt 1478715821%Z
          test_enum.b "Lorem ipsum")
       (mk_test_data unit Z unit Z 0 0 tt 0%Z tt 0%Z test_enum.a "")
     = test_data_eq unit Z unit Z Z.eqb Z.eqb
         (mk_test_data unit Z unit Z 0 0 tt 0%Z tt 0%Z test_enum.a "")
         (mk_test_data unit Z unit Z (-345) 7 tt 543%Z tt 1478715821%Z
            test_enum.b "Lorem ipsum").
Proof.
  split; [exact Z.eqb_sym |].
  apply (test_data_eq_symmetric unit Z unit Z Z.eqb Z.eqb);
    exact Z.eqb_sym.
Defined.

Lemma test_data_eq_self_witness :
  Z.eqb 1478715821%Z 1478715821%Z = true
  /\ test_data_eq unit Z unit Z Z.eqb Z.eqb
       (mk_test_data unit Z unit Z (-345) 7 tt 543%Z tt 1478715821%Z
          test_enum.b "Lorem ipsum")
       (mk_test_data unit Z unit Z (-345) 7 tt 543%Z tt 1478715821%Z
          test_enum.b "Lorem ipsum")
     = Z.eqb 543 543.
Proof.
  split; [reflexivity |].
  apply (test_data_eq_self unit Z unit Z Z.eqb Z.eqb
           (mk_test_data unit Z unit Z (-345) 7 tt 543%Z tt 1478715821%Z
              test_enum.b "Lorem ipsum")).
  reflexivity.
Defined.
